(** * react-native-examples: the logic of the two screens

    The logic of the two screens is embedded here, each part from its source
    function:

    - the supplements tab (SupplemementsScreen.tsx):
      [Supplements.computeUnscheduled], the supplements that no reminder
      refers to; the handlers [Supplements.handleDeleted] and
      [Supplements.handleEdit]; [Supplements.refresh] and what
      [Supplements.render] shows for a state;
    - the commerce main page: [Commerce.norm], [Commerce.titleToSlug],
      [Commerce.sections] and [Commerce.indexBySlug], the resolution of a
      banner / deep-link title to a showcase slug and to a list position;
      [Commerce.renderItem], [Commerce.focusEffect],
      [Commerce.safeParseParams] and [Commerce.onBannerPress].

    The models come first, in [Supplements] and [Commerce]; their
    properties follow in [SupplementsSpec] and [CommerceSpec].

    JavaScript values are modelled as follows.  A [number] used as an id is
    an integer ([Z]); a [Set<number>] is a [gset Z]; a [Map<string, number>]
    and an object used as a record of properties are [gmap]s; an array is a
    [list]; an optional field is an [option]; a string is the list of its
    UTF-16 code units; React state is a record, and a handler a function
    from state to state. *)

From Stdlib Require Import ZArith NArith Ascii String.
From stdpp Require Import gmap list strings pretty.

(** ** The supplements tab *)

Module Supplements.

(** [SupplementType] is declared outside the two screens.  The filter reads
    nothing but [id]; every other attribute (name, dosage, schedule, ...)
    travels along untouched in [attrs]. *)
Record SupplementType (Attrs : Type) := { id : Z; attrs : Attrs }.

Arguments id {Attrs} _.
Arguments attrs {Attrs} _.
Arguments Build_SupplementType {Attrs} _ _.

(** The parameter type of [computeUnscheduled]:
    [{ selectedSupplements?: number[] }]. *)
Record Reminder := { selectedSupplements : option (list Z) }.

(** [r.selectedSupplements ?? []] *)
Definition idsOf (r : Reminder) : list Z :=
  match selectedSupplements r with
  | Some ids => ids
  | None => []
  end.

(** The inner loop: [for (const id of ...) inAnyReminder.add(id)]. *)
Definition addAll (inAnyReminder : gset Z) (ids : list Z) : gset Z :=
  foldl (λ acc i, {[ i ]} ∪ acc) inAnyReminder ids.

(** The outer loop over the reminders, started from [new Set<number>()]. *)
Definition inAnyReminder (reminders : list Reminder) : gset Z :=
  foldl (λ acc r, addAll acc (idsOf r)) ∅ reminders.

(** [supps.filter((s) => !inAnyReminder.has(s.id))] *)
Definition computeUnscheduled {Attrs : Type}
    (supps : list (SupplementType Attrs)) (reminders : list Reminder)
    : list (SupplementType Attrs) :=
  filter (λ s, id s ∉ inAnyReminder reminders) supps.

(** A reminder [r'] stands for [r] with an absent [selectedSupplements]
    written out as the empty array (or is [r] itself). *)
Definition fillsAbsent (r r' : Reminder) : Prop :=
  r' = r ∨ (selectedSupplements r = None ∧ selectedSupplements r' = Some []).

(** [withIds r ids] is [{ ...r, selectedSupplements: ids }]. *)
Definition withIds (r : Reminder) (ids : list Z) : Reminder :=
  {| selectedSupplements := Some ids |}.

(** Three supplements for concrete runs. *)
Definition vitaminD : SupplementType string :=
  {| id := 1; attrs := "Vitamin D" |}.
Definition omega3 : SupplementType string :=
  {| id := 2; attrs := "Omega 3" |}.
Definition zinc : SupplementType string :=
  {| id := 3; attrs := "Zinc" |}.

(** *** The rest of the screen *)

(** [handleDeleted]: the new value of [supplements],
    [prev.filter((s) => s.id !== id)]. *)
Definition handleDeleted {Attrs : Type}
    (id0 : Z) (prev : list (SupplementType Attrs))
    : list (SupplementType Attrs) :=
  filter (λ s, id s ≠ id0) prev.

(** [handleEdit]: [supplements.filter((value) => value.id === id)[0]], the
    item handed to the edit screen; [None] when the guard
    [if (!item) return] fires and nothing is opened. *)
Definition handleEdit {Attrs : Type}
    (supplements : list (SupplementType Attrs)) (id0 : Z)
    : option (SupplementType Attrs) :=
  head (filter (λ value, id value = id0) supplements).

(** The [unscheduled] prop of a card:
    [unscheduledSupplements.some((item) => item.id === value.id)]. *)
Definition unscheduledFlag {Attrs : Type}
    (unscheduledSupplements : list (SupplementType Attrs))
    (value : SupplementType Attrs) : bool :=
  existsb (λ item, bool_decide (id item = id value)) unscheduledSupplements.

(** The three [useState] cells of the component. *)
Record ScreenState (Attrs : Type) := {
  supplements : list (SupplementType Attrs);
  unscheduledSupplements : list (SupplementType Attrs);
  loading : bool
}.

Arguments supplements {Attrs} _.
Arguments unscheduledSupplements {Attrs} _.
Arguments loading {Attrs} _.
Arguments Build_ScreenState {Attrs} _ _ _.

(** [useState([])], [useState([])], [useState(true)]. *)
Definition initialState {Attrs : Type} : ScreenState Attrs :=
  {| supplements := []; unscheduledSupplements := []; loading := true |}.

(** [refresh], from its call to the moment its promise settles.  [loaded] is
    what [Promise.all([listSupplements(), listReminders()])] resolved to, or
    [None] when it rejected: then only the [finally] block runs. *)
Definition refresh {Attrs : Type} (st : ScreenState Attrs)
    (loaded : option (list (SupplementType Attrs) * list Reminder))
    : ScreenState Attrs :=
  match loaded with
  | Some (supps, rems) =>
      {| supplements := supps;
         unscheduledSupplements := computeUnscheduled supps rems;
         loading := false |}
  | None =>
      {| supplements := supplements st;
         unscheduledSupplements := unscheduledSupplements st;
         loading := false |}
  end.

(** The state after [handleDeleted(id)]: only [supplements] is set. *)
Definition deleted {Attrs : Type} (st : ScreenState Attrs) (id0 : Z)
    : ScreenState Attrs :=
  {| supplements := handleDeleted id0 (supplements st);
     unscheduledSupplements := unscheduledSupplements st;
     loading := loading st |}.

(** What the component shows under the header: the activity indicator, the
    text "No supplements yet.", or one card per supplement with its
    [unscheduled] prop. *)
Inductive Body (Attrs : Type) :=
  | Spinner
  | NoSupplementsYet
  | Cards (cards : list (SupplementType Attrs * bool)).

Arguments Spinner {Attrs}.
Arguments NoSupplementsYet {Attrs}.
Arguments Cards {Attrs} _.

Definition render {Attrs : Type} (st : ScreenState Attrs) : Body Attrs :=
  if loading st then Spinner
  else
    match supplements st with
    | [] => NoSupplementsYet
    | _ =>
        Cards ((λ value,
                 (value, unscheduledFlag (unscheduledSupplements st) value))
               <$> supplements st)
    end.

End Supplements.

(** ** The commerce main page *)

Module Commerce.

(** A JavaScript string is the sequence of its UTF-16 code units. *)
Abbreviation jsstring := (list N).

(** A string literal of the source whose characters are all ASCII. *)
Definition lit (s : string) : jsstring :=
  N_of_ascii <$> list_ascii_of_string s.

(** *** [String.prototype] methods used by [norm] *)

Definition isUpper (c : N) : bool := ((65 <=? c) && (c <=? 90))%N.
Definition isLower (c : N) : bool := ((97 <=? c) && (c <=? 122))%N.
Definition isDigit (c : N) : bool := ((48 <=? c) && (c <=? 57))%N.

(** The lowercase mapping of one code unit.  [A-Z] go to [a-z]; U+0130
    (capital I with dot) goes to [i] followed by U+0307, and U+212A (the
    Kelvin sign) to [k]: these are the only code units outside ASCII whose
    lowercase form contains an ASCII character.  Any other code unit is kept:
    where JavaScript changes it, it changes it into characters outside ASCII
    that are no apostrophe, which [norm] treats as it treats the original. *)
Definition lowerUnit (c : N) : jsstring :=
  if isUpper c then [(c + 32)%N]
  else if (c =? 304)%N then [105; 775]%N
  else if (c =? 8490)%N then [107%N]
  else [c].

Definition toLowerCase (s : jsstring) : jsstring := s ≫= lowerUnit.

(** U+002D, the hyphen of the slugs. *)
Definition hyphen : N := 45.

(** The character class ['’]: U+0027 and U+2019. *)
Definition isApostrophe (c : N) : bool := ((c =? 39) || (c =? 8217))%N.

(** [.replace(/['’]/g, "")] *)
Definition stripApostrophes (s : jsstring) : jsstring :=
  filter (λ c, ¬ isApostrophe c) s.

(** The complement of the character class [^a-z0-9]. *)
Definition isAlnum (c : N) : bool := isLower c || isDigit c.

(** [.replace(/[^a-z0-9]+/g, " ")]: every maximal run of characters outside
    [a-z0-9] becomes one space.  [inRun] tells that the character before the
    current one belongs to a run whose space is already written. *)
Fixpoint collapseFrom (inRun : bool) (s : jsstring) : jsstring :=
  match s with
  | [] => []
  | c :: rest =>
      if isAlnum c then c :: collapseFrom false rest
      else if inRun then collapseFrom true rest
      else 32%N :: collapseFrom true rest
  end.

Definition collapseRuns (s : jsstring) : jsstring := collapseFrom false s.

(** WhiteSpace and LineTerminator of ECMAScript, what [trim] removes. *)
Definition isWhiteSpace (c : N) : bool :=
  ((9 <=? c) && (c <=? 13) || (c =? 32) || (c =? 160) || (c =? 5760)
   || (8192 <=? c) && (c <=? 8202) || (c =? 8232) || (c =? 8233)
   || (c =? 8239) || (c =? 8287) || (c =? 12288) || (c =? 65279))%N.

Fixpoint trimStart (s : jsstring) : jsstring :=
  match s with
  | [] => []
  | c :: rest => if isWhiteSpace c then trimStart rest else s
  end.

Definition trimEnd (s : jsstring) : jsstring :=
  reverse (trimStart (reverse s)).

Definition trim (s : jsstring) : jsstring := trimEnd (trimStart s).

(** *** The tables *)

Record Tag := { title : jsstring; slug : jsstring }.

(** U+2019, the apostrophe of "This Month’s Picks". *)
Definition rsquo : jsstring := [8217%N].

Definition TAGS : list Tag :=
  [ {| title := lit "Best Sellers"; slug := lit "best-sellers" |};
    {| title := lit "Limited-Time Deals"; slug := lit "limited-time-deals" |};
    {| title := lit "Bundles for Your Goals";
       slug := lit "bundles-for-your-goals" |};
    {| title := lit "Top Rated by Customers";
       slug := lit "top-rated-by-customers" |};
    {| title := lit "This Month" ++ rsquo ++ lit "s Picks";
       slug := lit "this-months-picks" |};
    {| title := lit "Just Arrived"; slug := lit "just-arrived" |} ].

(** The own properties of the object literal [SHOWCASE_ALIAS]. *)
Definition aliasEntries : list (jsstring * jsstring) :=
  [ (lit "limited-time deals", lit "limited-time-deals");
    (lit "top rated products", lit "top-rated-by-customers");
    (lit "top rated by customers", lit "top-rated-by-customers");
    (lit "best sellers", lit "best-sellers");
    (lit "bundles for your goals", lit "bundles-for-your-goals");
    (lit "this months picks", lit "this-months-picks");
    (lit "just arrived", lit "just-arrived") ].

Definition SHOWCASE_ALIAS : gmap jsstring jsstring :=
  list_to_map aliasEntries.

(** What a property read or [titleToSlug] can evaluate to. *)
Inductive value :=
  | VUndefined
  | VString (s : jsstring)
  | VInherited (name : jsstring).

(** The property names of [Object.prototype], from which an object literal
    inherits.  [VInherited name] is the function or object found there. *)
Definition objectPrototypeKeys : list jsstring :=
  [ lit "constructor"; lit "hasOwnProperty"; lit "isPrototypeOf";
    lit "propertyIsEnumerable"; lit "toLocaleString"; lit "toString";
    lit "valueOf"; lit "__proto__"; lit "__defineGetter__";
    lit "__defineSetter__"; lit "__lookupGetter__"; lit "__lookupSetter__" ].

(** [SHOWCASE_ALIAS[n]]: an own property if there is one, otherwise the
    property of the prototype, otherwise [undefined]. *)
Definition getAlias (n : jsstring) : value :=
  match SHOWCASE_ALIAS !! n with
  | Some s => VString s
  | None =>
      if bool_decide (n ∈ objectPrototypeKeys) then VInherited n
      else VUndefined
  end.

(** ToBoolean, as in [if (v)]. *)
Definition truthy (v : value) : bool :=
  match v with
  | VUndefined => false
  | VString s => negb (bool_decide (s = []))
  | VInherited _ => true
  end.

(** *** [norm] and [titleToSlug] *)

Definition norm (s : jsstring) : jsstring :=
  trim (collapseRuns (stripApostrophes (toLowerCase s))).

Definition titleToSlug (title0 : jsstring) : value :=
  let n := norm title0 in
  if truthy (getAlias n) then getAlias n
  else
    match find (λ t, bool_decide (norm (title t) = n)) TAGS with
    | Some hit => VString (slug hit)
    | None => VUndefined
    end.

(** *** The rendered rows and the slug index *)

Inductive Row :=
  | Banner
  | Categories
  | Showcase (key title slug : jsstring) (timed : bool).

Definition showcaseRow (t : Tag) : Row :=
  Showcase (lit "tag-" ++ slug t) (title t) (slug t)
           (bool_decide (slug t = lit "limited-time-deals")).

Definition sections : list Row :=
  Banner :: Categories :: (showcaseRow <$> TAGS).

(** [sections.forEach((row, i) => ...)] from index [i] on. *)
Fixpoint indexFrom (i : nat) (rows : list Row) (map : gmap jsstring nat)
    : gmap jsstring nat :=
  match rows with
  | [] => map
  | row :: rest =>
      indexFrom (S i) rest
        match row with
        | Showcase _ _ slug0 _ => <[slug0 := i]> map
        | _ => map
        end
  end.

Definition indexBySlug (rows : list Row) : gmap jsstring nat :=
  indexFrom 0 rows ∅.

(** [indexBySlug.get(slug)] inside [scrollToShowcase]: the position the list
    is scrolled to, if any.  A key that is no string is in no entry. *)
Definition scrollToShowcase (rows : list Row) (v : value) : option nat :=
  match v with
  | VString s => indexBySlug rows !! s
  | _ => None
  end.

(** [scrollToShowcaseTitle]: the position scrolled to for a title. *)
Definition scrollToShowcaseTitle (rows : list Row) (title0 : jsstring)
    : option nat :=
  let v := titleToSlug title0 in
  if truthy v then scrollToShowcase rows v else None.

(** *** The shape of a normalized title *)

Definition isNormChar (c : N) : bool := isAlnum c || (c =? 32)%N.

(** Lowercase letters and digits, in words separated by single spaces:
    only characters of [a-z0-9] and the space, no two spaces in a row, no
    space at either end. *)
Record normalForm (l : jsstring) : Prop := {
  nf_chars : Forall (λ c, isNormChar c) l;
  nf_single : ∀ l1 l2, l ≠ l1 ++ 32%N :: 32%N :: l2;
  nf_head : head l ≠ Some 32%N;
  nf_last : last l ≠ Some 32%N
}.

(** *** The list, its rows and the focus effect *)

(** [sections] for a table of tags: the banner, the categories, one showcase
    row per tag.  [sections] is [sectionsFor TAGS]. *)
Definition sectionsFor (tags : list Tag) : list Row :=
  Banner :: Categories :: (showcaseRow <$> tags).

(** The slug of a showcase row; the other rows have none. *)
Definition rowSlug (row : Row) : option jsstring :=
  match row with
  | Showcase _ _ slug0 _ => Some slug0
  | _ => None
  end.

(** The slug of the row at a position, if that is a showcase row. *)
Definition slugAt (rows : list Row) (i : nat) : option jsstring :=
  rows !! i ≫= rowSlug.

(** [keyExtractor]: [row.key]. *)
Definition keyExtractor (row : Row) : jsstring :=
  match row with
  | Banner => lit "banner"
  | Categories => lit "categories"
  | Showcase key0 _ _ _ => key0
  end.

(** The hook results and the state that [renderItem] and the focus effect
    read. *)
Record Env := {
  urlLoading : bool;
  categoryLoading : bool;
  timeDealLoading : bool;
  deferred : bool
}.

(** What [renderItem] returns, with the props that come from the row. *)
Inductive Element :=
  | BannerCarouselSkeleton
  | BannerCarousel
  | CategoryGridSkeleton
  | CategoryGrid
  | Placeholder
  | TimedShowcaseByTag (key title tagSlug : jsstring)
  | ShowcaseByTag (key title tagSlug : jsstring).

Definition renderItem (env : Env) (item : Row) : Element :=
  match item with
  | Banner =>
      if urlLoading env then BannerCarouselSkeleton else BannerCarousel
  | Categories =>
      if categoryLoading env then CategoryGridSkeleton else CategoryGrid
  | Showcase _ title0 slug0 timed =>
      let isTimed := timed && negb (timeDealLoading env) in
      if negb (deferred env) && negb (bool_decide (slug0 = lit "best-sellers"))
      then Placeholder
      else if isTimed
      then TimedShowcaseByTag slug0 title0 (lit "limited-time-deals")
      else ShowcaseByTag slug0 title0 slug0
  end.

(** [const done = !urlLoading && !categoryLoading && !timeDealLoading] *)
Definition done (env : Env) : bool :=
  negb (urlLoading env) && negb (categoryLoading env)
  && negb (timeDealLoading env).

(** What one run of the focus effect has done once its timer and its
    interaction callback have run: the position scrolled to, if any, and the
    route parameter [scrollTo] afterwards. *)
Record FocusResult := {
  scrolledTo : option nat;
  scrollToAfter : option jsstring
}.

Definition focusEffect (env : Env) (scrollTo : option jsstring)
    : FocusResult :=
  if negb (done env) then
    {| scrolledTo := None; scrollToAfter := scrollTo |}
  else
    match scrollTo with
    | None => {| scrolledTo := None; scrollToAfter := scrollTo |}
    | Some param =>
        let title0 := trim param in
        if bool_decide (title0 = []) then
          {| scrolledTo := None; scrollToAfter := scrollTo |}
        else
          {| scrolledTo := scrollToShowcaseTitle sections title0;
             scrollToAfter := None |}
    end.

(** A code unit that [norm] turns into (part of) a separating space: its
    lowercase form is itself, it is outside [a-z0-9] and it is no
    apostrophe. *)
Definition isSeparator (c : N) : bool :=
  negb (isAlnum c) && negb (isUpper c) && negb (isApostrophe c)
  && negb (c =? 304)%N && negb (c =? 8490)%N.

(** *** Banner actions *)

Section Banner.

(** A number of a JSON text; the page never looks into one. *)
Context {Num : Type}.

(** What [JSON.parse] returns. *)
#[warnings="-register-all"]
Inductive json :=
  | JNull
  | JBool (b : bool)
  | JNumber (x : Num)
  | JString (s : jsstring)
  | JArray (items : list json)
  | JObject (props : gmap jsstring json).

(** [JSON.parse] of the platform; [None] when it throws. *)
Context (JSON_parse : jsstring → option json).

(** [typeof o === "object"]: objects, arrays and [null]. *)
Definition typeofObject (o : json) : bool :=
  match o with
  | JNull | JArray _ | JObject _ => true
  | _ => false
  end.

(** [safeParseParams]; the argument is [None] for [undefined] and [null],
    the result is [None] for [undefined]. *)
Definition safeParseParams (json0 : option jsstring) : option json :=
  match json0 with
  | None => None
  | Some text =>
      if bool_decide (text = []) then None
      else
        match JSON_parse text with
        | Some o => if typeofObject o then Some o else None
        | None => None
        end
  end.

(** The fields of a banner ([UrlType]) that [onBannerPress] reads. *)
Record UrlType := {
  action : jsstring;
  target : option jsstring;
  params : option jsstring
}.

(** The own enumerable properties that [{ ...raw }] copies: those of an
    object, the elements of an array under their indices, none of [null]
    and [undefined]. *)
Definition ownProps (raw : option json) : gmap jsstring json :=
  match raw with
  | Some (JObject props) => props
  | Some (JArray items) =>
      list_to_map (imap (λ i x, (lit (pretty i), x)) items)
  | _ => ∅
  end.

(** [raw?.promoTag ?? undefined]; [None] is [undefined]. *)
Definition promoTagOf (raw : option json) : option json :=
  match raw with
  | Some (JObject props) =>
      match props !! lit "promoTag" with
      | Some JNull => None
      | found => found
      end
  | _ => None
  end.

(** What a press on a banner does. *)
Inductive BannerEffect :=
  | Navigate (target : jsstring) (params : option json)
  | ScrollToOffset (offset : Z) (animated : bool)
  | NoEffect.

Definition onBannerPress (b : UrlType) : BannerEffect :=
  if bool_decide (action b = lit "nav") then
    let target0 := default [] (target b) in
    let raw := safeParseParams (params b) in
    let promoTag := promoTagOf raw in
    let finalParams :=
      if bool_decide (target0 = lit "Shop") then
        Some (JObject
                match promoTag with
                | Some tag => <[lit "promoTag" := tag]> (ownProps raw)
                | None => ownProps raw
                end)
      else raw in
    if bool_decide (target0 = []) then NoEffect
    else Navigate target0 finalParams
  else if bool_decide (action b = lit "scroll") then
    ScrollToOffset 999999 true
  else NoEffect.

End Banner.

End Commerce.

(** ** Properties of the supplements tab *)

Module SupplementsSpec.

Import Supplements.

Section Unscheduled.

Context {Attrs : Type}.

(** *** What the two loops collect *)

Lemma elem_of_addAll (acc : gset Z) (ids : list Z) (x : Z) :
  x ∈ addAll acc ids ↔ x ∈ acc ∨ x ∈ ids.
Proof.
  revert acc. induction ids as [|i ids IH]; intros acc; simpl.
  - rewrite elem_of_nil. tauto.
  - unfold addAll in *. simpl. rewrite IH, elem_of_union, elem_of_singleton,
      elem_of_cons. tauto.
Qed.

Lemma elem_of_collect (acc : gset Z) (reminders : list Reminder) (x : Z) :
  x ∈ foldl (λ acc r, addAll acc (idsOf r)) acc reminders ↔
  x ∈ acc ∨ ∃ r, r ∈ reminders ∧ x ∈ idsOf r.
Proof.
  revert acc. induction reminders as [|r rs IH]; intros acc; simpl.
  - split; [tauto|]. intros [H|(r & Hr & _)]; [done|]. by apply elem_of_nil in Hr.
  - rewrite IH, elem_of_addAll. split.
    + intros [[H|H]|(r' & Hr' & Hx)].
      * by left.
      * right. exists r. split; [apply elem_of_cons; by left|done].
      * right. exists r'. split; [apply elem_of_cons; by right|done].
    + intros [H|(r' & Hr' & Hx)]; [tauto|].
      apply elem_of_cons in Hr' as [->|Hr']; [tauto|].
      right. by exists r'.
Qed.

Lemma elem_of_inAnyReminder (reminders : list Reminder) (x : Z) :
  x ∈ inAnyReminder reminders ↔ ∃ r, r ∈ reminders ∧ x ∈ idsOf r.
Proof.
  unfold inAnyReminder. rewrite elem_of_collect, elem_of_empty. tauto.
Qed.

Lemma elem_of_idsOf (r : Reminder) (x : Z) :
  x ∈ idsOf r ↔ ∃ ids, selectedSupplements r = Some ids ∧ x ∈ ids.
Proof.
  unfold idsOf. destruct (selectedSupplements r) as [ids|].
  - split; [by exists ids|]. by intros (? & [= <-] & ?).
  - rewrite elem_of_nil. split; [tauto|]. by intros (? & ? & _).
Qed.

(** Two reminder lists that refer to the same ids, as far as the ids of the
    given supplements are concerned, leave the same supplements unscheduled. *)
Lemma computeUnscheduled_ext
    (supps : list (SupplementType Attrs)) (rs1 rs2 : list Reminder) :
  (∀ s, s ∈ supps → id s ∈ inAnyReminder rs1 ↔ id s ∈ inAnyReminder rs2) →
  computeUnscheduled supps rs1 = computeUnscheduled supps rs2.
Proof.
  intros H. unfold computeUnscheduled.
  induction supps as [|s supps IH]; [done|].
  rewrite !filter_cons.
  rewrite IH by (intros s' Hs'; apply H; apply elem_of_cons; by right).
  assert (Hs : id s ∈ inAnyReminder rs1 ↔ id s ∈ inAnyReminder rs2)
    by (apply H; apply elem_of_cons; by left).
  do 2 case_decide; tauto.
Qed.

Lemma elem_of_inAnyReminder_app (rs1 rs2 : list Reminder) (x : Z) :
  x ∈ inAnyReminder (rs1 ++ rs2) ↔
  x ∈ inAnyReminder rs1 ∨ x ∈ inAnyReminder rs2.
Proof.
  rewrite !elem_of_inAnyReminder. split.
  - intros (r & Hr & Hx). apply elem_of_app in Hr as [Hr|Hr];
      [left|right]; by exists r.
  - intros [(r & Hr & Hx)|(r & Hr & Hx)]; exists r;
      (split; [apply elem_of_app; tauto|done]).
Qed.

Lemma elem_of_inAnyReminder_cons (r : Reminder) (rs : list Reminder) (x : Z) :
  x ∈ inAnyReminder (r :: rs) ↔ x ∈ idsOf r ∨ x ∈ inAnyReminder rs.
Proof.
  rewrite !elem_of_inAnyReminder. split.
  - intros (r' & Hr' & Hx). apply elem_of_cons in Hr' as [->|Hr'];
      [by left|right; by exists r'].
  - intros [Hx|(r' & Hr' & Hx)].
    + exists r. split; [apply elem_of_cons; by left|done].
    + exists r'. split; [apply elem_of_cons; by right|done].
Qed.

Lemma fillsAbsent_idsOf (r r' : Reminder) :
  fillsAbsent r r' → idsOf r' = idsOf r.
Proof.
  intros [->|[Hr Hr']]; [done|]. unfold idsOf. by rewrite Hr, Hr'.
Qed.

(** *** The claims *)

(** C1: a supplement is in [computeUnscheduled supps reminders] exactly when
    it is one of [supps] and its id occurs in the [selectedSupplements] of no
    reminder, that is, it is outside the union of the referenced-id sets. *)
Theorem unscheduled_iff_unreferenced
    (supps : list (SupplementType Attrs)) (reminders : list Reminder)
    (s : SupplementType Attrs) :
  s ∈ computeUnscheduled supps reminders ↔
  s ∈ supps ∧
  ¬ ∃ r ids, r ∈ reminders ∧ selectedSupplements r = Some ids ∧ id s ∈ ids.
Proof.
  unfold computeUnscheduled.
  rewrite list_elem_of_filter, elem_of_inAnyReminder.
  split; intros [H1 H2]; split; try done.
  - intros (r & ids & Hr & Hsel & Hin). apply H1. exists r. split; [done|].
    apply elem_of_idsOf. by exists ids.
  - intros (r & Hr & Hin). apply elem_of_idsOf in Hin as (ids & Hsel & Hin).
    apply H2. by exists r, ids.
Qed.

(** C2: [computeUnscheduled supps reminders] is a subsequence of [supps]:
    it is obtained from [supps] by deleting elements, so what remains comes
    from [supps] and stands in the original relative order. *)
Theorem unscheduled_sublist
    (supps : list (SupplementType Attrs)) (reminders : list Reminder) :
  computeUnscheduled supps reminders `sublist_of` supps.
Proof. apply sublist_filter. Qed.

(** C10: with no reminder at all every supplement is unscheduled. *)
Theorem unscheduled_no_reminders (supps : list (SupplementType Attrs)) :
  computeUnscheduled supps [] = supps.
Proof.
  unfold computeUnscheduled.
  induction supps as [|s supps IH]; [done|].
  rewrite filter_cons, IH. case_decide as H; [done|].
  apply elem_of_inAnyReminder in H as (r & Hr & _).
  by apply elem_of_nil in Hr.
Qed.

(** C8: a reminder without [selectedSupplements] counts as one with the
    empty array: writing [[]] into any number of the absent fields of the
    reminder list leaves [computeUnscheduled] unchanged. *)
Theorem absent_as_empty
    (supps : list (SupplementType Attrs)) (rs rs' : list Reminder) :
  Forall2 fillsAbsent rs rs' →
  computeUnscheduled supps rs' = computeUnscheduled supps rs.
Proof.
  intros HF. apply computeUnscheduled_ext. intros s _.
  generalize (id s). intros x.
  induction HF as [|r r' rs rs' Hr _ IH]; [done|].
  rewrite !elem_of_inAnyReminder_cons, IH, (fillsAbsent_idsOf r r' Hr). tauto.
Qed.

(** C9: a dangling reference is ignored: when [d] is the id of no supplement
    in [supps], inserting [d] anywhere into the id array of the [k]-th
    reminder (an absent array counting as empty) leaves [computeUnscheduled]
    unchanged. *)
Theorem dangling_reference_ignored
    (supps : list (SupplementType Attrs)) (rs : list Reminder)
    (k : nat) (r : Reminder) (l1 l2 : list Z) (d : Z) :
  (∀ s, s ∈ supps → id s ≠ d) →
  rs !! k = Some r →
  idsOf r = l1 ++ l2 →
  computeUnscheduled supps (<[k := withIds r (l1 ++ d :: l2)]> rs) =
  computeUnscheduled supps rs.
Proof.
  intros Hd Hk Hids. apply computeUnscheduled_ext. intros s Hs.
  specialize (Hd s Hs). revert Hd. generalize (id s). intros x Hx.
  pose proof (take_drop_middle rs k r Hk) as Hsplit.
  assert (Hlen : length (take k rs) = k).
  { apply length_take_le. apply lookup_lt_Some in Hk. lia. }
  assert (Hins : <[k := withIds r (l1 ++ d :: l2)]> rs =
                 take k rs ++ withIds r (l1 ++ d :: l2) :: drop (S k) rs).
  { rewrite <- Hsplit at 1. rewrite insert_app_r_alt by lia.
    by rewrite Hlen, Nat.sub_diag. }
  assert (Hrs : x ∈ inAnyReminder rs ↔
                x ∈ inAnyReminder (take k rs ++ r :: drop (S k) rs))
    by (by rewrite Hsplit).
  rewrite Hins, Hrs.
  rewrite !elem_of_inAnyReminder_app, !elem_of_inAnyReminder_cons.
  rewrite Hids. unfold withIds, idsOf at 1. simpl.
  rewrite !elem_of_app, elem_of_cons. tauto.
Qed.

End Unscheduled.

(** *** Concrete runs *)

(** Three supplements, one reminder that refers to the second. *)
Example unscheduled_example :
  computeUnscheduled [vitaminD; omega3; zinc]
    [ {| selectedSupplements := Some [2%Z] |} ]
  = [vitaminD; zinc].
Proof. vm_compute. reflexivity. Qed.

(** C8 at a reminder list whose first reminder has no id array. *)
Lemma absent_as_empty_witness :
  Forall2 fillsAbsent
    [ {| selectedSupplements := None |};
      {| selectedSupplements := Some [2%Z] |} ]
    [ {| selectedSupplements := Some [] |};
      {| selectedSupplements := Some [2%Z] |} ] ∧
  computeUnscheduled [vitaminD; omega3; zinc]
    [ {| selectedSupplements := Some [] |};
      {| selectedSupplements := Some [2%Z] |} ] =
  computeUnscheduled [vitaminD; omega3; zinc]
    [ {| selectedSupplements := None |};
      {| selectedSupplements := Some [2%Z] |} ].
Proof.
  assert (H : Forall2 fillsAbsent
    [ {| selectedSupplements := None |};
      {| selectedSupplements := Some [2%Z] |} ]
    [ {| selectedSupplements := Some [] |};
      {| selectedSupplements := Some [2%Z] |} ]).
  { constructor; [right; split; reflexivity|].
    constructor; [left; reflexivity|constructor]. }
  split; [exact H|].
  exact (absent_as_empty [vitaminD; omega3; zinc] _ _ H).
Defined.

(** C9 with the id 7, which no supplement has, put into the second
    reminder, whose id array is absent. *)
Lemma dangling_reference_ignored_witness :
  computeUnscheduled [vitaminD; omega3; zinc]
    (<[1 := withIds {| selectedSupplements := None |} ([] ++ 7%Z :: [])]>
       [ {| selectedSupplements := Some [2%Z] |};
         {| selectedSupplements := None |} ]) =
  computeUnscheduled [vitaminD; omega3; zinc]
    [ {| selectedSupplements := Some [2%Z] |};
      {| selectedSupplements := None |} ].
Proof.
  apply (dangling_reference_ignored [vitaminD; omega3; zinc]
           [ {| selectedSupplements := Some [2%Z] |};
             {| selectedSupplements := None |} ]
           1 {| selectedSupplements := None |} [] [] 7%Z).
  - intros s Hs.
    repeat (apply elem_of_cons in Hs as [Hs|Hs]);
      [ subst s; vm_compute; discriminate ..
      | by apply elem_of_nil in Hs ].
  - reflexivity.
  - reflexivity.
Defined.

(** *** The handlers and the cards *)

Section Screen.

Context {Attrs : Type}.

Lemma elem_of_handleDeleted
    (i : Z) (supps : list (SupplementType Attrs)) (s : SupplementType Attrs) :
  s ∈ handleDeleted i supps ↔ id s ≠ i ∧ s ∈ supps.
Proof. unfold handleDeleted. by rewrite list_elem_of_filter. Qed.

Lemma head_filter_Some {A : Type} (P : A → Prop) `{!∀ x, Decision (P x)}
    (l : list A) (x : A) :
  head (filter P l) = Some x ↔
  ∃ l1 l2, l = l1 ++ x :: l2 ∧ P x ∧ Forall (λ y, ¬ P y) l1.
Proof.
  induction l as [|a l IH].
  - split; [done|]. intros (l1 & l2 & Heq & _). by destruct l1.
  - rewrite filter_cons. destruct (decide (P a)) as [Ha|Ha]; simpl.
    + split.
      * intros [= ->]. exists [], l. by repeat split.
      * intros (l1 & l2 & Heq & Hx & Hl1). destruct l1 as [|b l1].
        -- by injection Heq as ->.
        -- injection Heq as -> _. by apply Forall_cons in Hl1 as [? _].
    + rewrite IH. split.
      * intros (l1 & l2 & -> & Hx & Hl1). exists (a :: l1), l2.
        repeat split; [done|by constructor].
      * intros (l1 & l2 & Heq & Hx & Hl1). destruct l1 as [|b l1].
        -- injection Heq as -> _. done.
        -- injection Heq as -> ->. apply Forall_cons in Hl1 as [_ Hl1].
           by exists l1, l2.
Qed.

Lemma existsb_bool_decide {A : Type} (P : A → Prop) `{!∀ x, Decision (P x)}
    (l : list A) :
  existsb (λ x, bool_decide (P x)) l = true ↔ ∃ x, x ∈ l ∧ P x.
Proof.
  rewrite existsb_exists. split.
  - intros (x & Hin & HP). exists x. split; [by apply list_elem_of_In|].
    by apply bool_decide_eq_true in HP.
  - intros (x & Hin & HP). exists x. split; [by apply list_elem_of_In|].
    by apply bool_decide_eq_true.
Qed.

(** The flag of a card, for a supplement of the list the unscheduled ones
    were computed from. *)
Lemma unscheduledFlag_computeUnscheduled
    (supps : list (SupplementType Attrs)) (rems : list Reminder)
    (value : SupplementType Attrs) :
  value ∈ supps →
  unscheduledFlag (computeUnscheduled supps rems) value =
  bool_decide (id value ∉ inAnyReminder rems).
Proof.
  intros Hin. apply Bool.eq_true_iff_eq. unfold unscheduledFlag.
  rewrite (existsb_bool_decide (λ item, id item = id value)).
  rewrite bool_decide_eq_true.
  unfold computeUnscheduled. split.
  - intros (item & Hitem & Heq). apply list_elem_of_filter in Hitem as [H _].
    by rewrite <- Heq.
  - intros H. exists value. split; [|done]. by apply list_elem_of_filter.
Qed.

Lemma deletions_subseteq (ids : list Z) (supps : list (SupplementType Attrs)) :
  foldl (λ l i, handleDeleted i l) supps ids ⊆ supps.
Proof.
  revert supps. induction ids as [|i ids IH]; intros supps; simpl; [done|].
  intros s Hs. apply IH in Hs. by apply elem_of_handleDeleted in Hs as [_ ?].
Qed.

Lemma deletions_state (ids : list Z) (st : ScreenState Attrs) :
  foldl deleted st ids =
  {| supplements := foldl (λ l i, handleDeleted i l) (supplements st) ids;
     unscheduledSupplements := unscheduledSupplements st;
     loading := loading st |}.
Proof.
  revert st. induction ids as [|i ids IH]; intros st; simpl.
  - by destruct st.
  - by rewrite IH.
Qed.

(** X1: [handleEdit] opens the first supplement that has the id: the list splits
    around the item it returns, and nothing before the item has the id. *)
Theorem handleEdit_first_match
    (supps : list (SupplementType Attrs)) (i : Z)
    (item : SupplementType Attrs) :
  handleEdit supps i = Some item ↔
  ∃ l1 l2, supps = l1 ++ item :: l2 ∧ id item = i ∧
           Forall (λ s, id s ≠ i) l1.
Proof. apply (head_filter_Some (λ value, id value = i)). Qed.

(** X2: the guard of [handleEdit] fires exactly when no supplement has the id;
    in particular after [handleDeleted] of that id. *)
Theorem handleEdit_guard (supps : list (SupplementType Attrs)) (i : Z) :
  (handleEdit supps i = None ↔ ∀ s, s ∈ supps → id s ≠ i) ∧
  handleEdit (handleDeleted i supps) i = None.
Proof.
  assert (H : ∀ l : list (SupplementType Attrs),
             handleEdit l i = None ↔ ∀ s, s ∈ l → id s ≠ i).
  { intros l. unfold handleEdit. rewrite head_None. split.
    - intros Hnil s Hs Hid.
      assert (Hin : s ∈ filter (λ value, id value = i) l)
        by by apply list_elem_of_filter.
      rewrite Hnil in Hin. by apply elem_of_nil in Hin.
    - intros Hall. destruct (filter _ l) as [|x xs] eqn:Hf; [done|].
      assert (Hin : x ∈ filter (λ value, id value = i) l)
        by (rewrite Hf; apply elem_of_cons; by left).
      apply list_elem_of_filter in Hin as [Hid Hin]. by apply Hall in Hin. }
  split; [apply H|]. apply H. intros s Hs.
  by apply elem_of_handleDeleted in Hs as [? _].
Qed.

(** X3: deleting a supplement and computing the unscheduled ones commute. *)
Theorem handleDeleted_computeUnscheduled
    (supps : list (SupplementType Attrs)) (rems : list Reminder) (i : Z) :
  computeUnscheduled (handleDeleted i supps) rems =
  handleDeleted i (computeUnscheduled supps rems).
Proof.
  unfold computeUnscheduled, handleDeleted.
  induction supps as [|s supps IH]; [done|].
  rewrite !filter_cons.
  destruct (decide (id s ≠ i)); destruct (decide (id s ∉ inAnyReminder rems));
    rewrite ?filter_cons; repeat case_decide; try done; by rewrite IH.
Qed.

(** X4: reminders can be taken into account in two rounds: what is unscheduled
    for [rs1 ++ rs2] is what stays unscheduled for [rs2] among the
    supplements unscheduled for [rs1]. *)
Theorem computeUnscheduled_app
    (supps : list (SupplementType Attrs)) (rs1 rs2 : list Reminder) :
  computeUnscheduled supps (rs1 ++ rs2) =
  computeUnscheduled (computeUnscheduled supps rs1) rs2.
Proof.
  unfold computeUnscheduled.
  induction supps as [|s supps IH]; [done|].
  rewrite !filter_cons, IH.
  pose proof (elem_of_inAnyReminder_app rs1 rs2 (id s)) as Happ.
  destruct (decide (id s ∉ inAnyReminder rs1)) as [H1|H1];
    rewrite ?filter_cons; repeat case_decide; try done; tauto.
Qed.

(** X5: the order of the reminders does not matter. *)
Theorem computeUnscheduled_Permutation
    (supps : list (SupplementType Attrs)) (rs rs' : list Reminder) :
  rs ≡ₚ rs' → computeUnscheduled supps rs = computeUnscheduled supps rs'.
Proof.
  intros Hp. apply computeUnscheduled_ext. intros s _.
  rewrite !elem_of_inAnyReminder.
  split; intros (r & Hr & Hx); exists r; (split; [|done]).
  - by rewrite <- Hp.
  - by rewrite Hp.
Qed.

(** X6: a card of a supplement of [supps] is flagged exactly when no reminder
    refers to the supplement's id, also when several supplements share the
    id. *)
Theorem unscheduledFlag_spec
    (supps : list (SupplementType Attrs)) (rems : list Reminder)
    (value : SupplementType Attrs) :
  value ∈ supps →
  (unscheduledFlag (computeUnscheduled supps rems) value = true ↔
   ¬ ∃ r ids, r ∈ rems ∧ selectedSupplements r = Some ids ∧ id value ∈ ids).
Proof.
  intros Hin. rewrite (unscheduledFlag_computeUnscheduled _ _ _ Hin).
  rewrite bool_decide_eq_true, elem_of_inAnyReminder. split.
  - intros H (r & ids & Hr & Hsel & Hid). apply H. exists r. split; [done|].
    apply elem_of_idsOf. by exists ids.
  - intros H (r & Hr & Hid). apply elem_of_idsOf in Hid as (ids & Hsel & Hid).
    apply H. by exists r, ids.
Qed.

(** X7: after a refresh that loaded [supps] and [rems], and any deletions
    since, the screen shows the supplements that were not deleted, each
    flagged exactly when no reminder refers to it: the stale
    [unscheduledSupplements] does no harm. *)
Theorem render_after_deletions
    (st : ScreenState Attrs) (supps : list (SupplementType Attrs))
    (rems : list Reminder) (ids : list Z) :
  render (foldl deleted (refresh st (Some (supps, rems))) ids) =
  match foldl (λ l i, handleDeleted i l) supps ids with
  | [] => NoSupplementsYet
  | shown =>
      Cards ((λ value, (value, bool_decide (id value ∉ inAnyReminder rems)))
             <$> shown)
  end.
Proof.
  rewrite deletions_state. unfold render. simpl.
  pose proof (deletions_subseteq ids supps) as Hsub.
  remember (foldl (λ l i, handleDeleted i l) supps ids) as shown eqn:Hshown.
  assert (Hcards :
    (λ value, (value, unscheduledFlag (computeUnscheduled supps rems) value))
      <$> shown =
    (λ value, (value, bool_decide (id value ∉ inAnyReminder rems)))
      <$> shown).
  { apply list_fmap_ext. intros k value Hk. f_equal.
    apply unscheduledFlag_computeUnscheduled, Hsub.
    by apply list_elem_of_lookup_2 in Hk. }
  destruct shown as [|s shown]; [done|]. f_equal. exact Hcards.
Qed.

End Screen.

(** The flag of the third card when the one reminder refers to the second
    supplement. *)
Lemma unscheduledFlag_spec_witness :
  unscheduledFlag (computeUnscheduled [vitaminD; omega3; zinc]
                     [ {| selectedSupplements := Some [2%Z] |} ]) zinc = true ↔
  ¬ ∃ r ids, r ∈ [ {| selectedSupplements := Some [2%Z] |} ] ∧
             selectedSupplements r = Some ids ∧ id zinc ∈ ids.
Proof.
  apply (unscheduledFlag_spec [vitaminD; omega3; zinc]).
  apply list_elem_of_In. simpl. tauto.
Defined.

(** Two reminders, in either order. *)
Lemma computeUnscheduled_Permutation_witness :
  computeUnscheduled [vitaminD; omega3; zinc]
    [ {| selectedSupplements := Some [2%Z] |};
      {| selectedSupplements := None |} ] =
  computeUnscheduled [vitaminD; omega3; zinc]
    [ {| selectedSupplements := None |};
      {| selectedSupplements := Some [2%Z] |} ].
Proof.
  apply computeUnscheduled_Permutation. apply perm_swap.
Defined.

End SupplementsSpec.

(** ** Properties of the commerce main page *)

Module CommerceSpec.

Import Commerce.

Lemma isAlnum_not_space (c : N) : isAlnum c → c ≠ 32%N.
Proof. intros H ->. exact H. Qed.

Lemma space_isWhiteSpace : isWhiteSpace 32 = true.
Proof. reflexivity. Qed.

Lemma collapseFrom_chars (b : bool) (s : jsstring) :
  Forall (λ c, isNormChar c) (collapseFrom b s).
Proof.
  revert b. induction s as [|c s IH]; intros b; simpl; [constructor|].
  destruct (isAlnum c) eqn:Hc.
  - constructor; [|apply IH]. unfold isNormChar. by rewrite Hc.
  - destruct b; [apply IH|]. constructor; [done|apply IH].
Qed.

Lemma collapseFrom_true_head (s : jsstring) :
  head (collapseFrom true s) ≠ Some 32%N.
Proof.
  induction s as [|c s IH]; simpl; [done|].
  destruct (isAlnum c) eqn:Hc; [|done].
  simpl. intros [= ->]. done.
Qed.

Lemma collapseFrom_single (b : bool) (s l1 l2 : jsstring) :
  collapseFrom b s ≠ l1 ++ 32%N :: 32%N :: l2.
Proof.
  revert b l1. induction s as [|c s IH]; intros b l1; simpl.
  - by destruct l1.
  - destruct (isAlnum c) eqn:Hc.
    + destruct l1 as [|c' l1]; simpl.
      * intros [= -> _]. done.
      * intros [= _ H]. by apply IH in H.
    + destruct b; [apply IH|].
      destruct l1 as [|c' l1]; simpl.
      * intros [= H]. apply (collapseFrom_true_head s). by rewrite H.
      * intros [= _ H]. by apply IH in H.
Qed.

Lemma trimStart_suffix (s : jsstring) : trimStart s `suffix_of` s.
Proof.
  induction s as [|c s IH]; simpl; [done|].
  destruct (isWhiteSpace c); [by apply suffix_cons_r|done].
Qed.

Lemma trimStart_head (s : jsstring) (c : N) :
  head (trimStart s) = Some c → isWhiteSpace c = false.
Proof.
  induction s as [|c' s IH]; simpl; [done|].
  destruct (isWhiteSpace c') eqn:Hc'; [done|].
  simpl. by intros [= <-].
Qed.

Lemma trimEnd_prefix (s : jsstring) : trimEnd s `prefix_of` s.
Proof.
  unfold trimEnd. destruct (trimStart_suffix (reverse s)) as [k Hk].
  exists (reverse k).
  rewrite <- reverse_app, <- Hk. by rewrite reverse_involutive.
Qed.

Lemma trimEnd_last (s : jsstring) (c : N) :
  last (trimEnd s) = Some c → isWhiteSpace c = false.
Proof. unfold trimEnd. rewrite last_reverse. apply trimStart_head. Qed.

Lemma trim_head (s : jsstring) (c : N) :
  head (trim s) = Some c → isWhiteSpace c = false.
Proof.
  unfold trim. destruct (trimEnd_prefix (trimStart s)) as [k Hk].
  intros H. apply (trimStart_head s). rewrite Hk.
  destruct (trimEnd (trimStart s)); [done|exact H].
Qed.

(** [trim s] is a segment of [s]. *)
Lemma trim_segment (s : jsstring) : ∃ k1 k2, s = k1 ++ trim s ++ k2.
Proof.
  destruct (trimStart_suffix s) as [k1 Hk1].
  destruct (trimEnd_prefix (trimStart s)) as [k2 Hk2].
  exists k1, k2. unfold trim. by rewrite <- Hk2.
Qed.

(** Whatever the input, trimming what [collapseRuns] returns gives a
    normal form. *)
Lemma trim_collapseRuns_normalForm (s : jsstring) :
  normalForm (trim (collapseRuns s)).
Proof.
  destruct (trim_segment (collapseRuns s)) as (k1 & k2 & Hseg).
  split.
  - pose proof (collapseFrom_chars false s) as H. fold (collapseRuns s) in H.
    rewrite Hseg in H. apply Forall_app in H as [_ H].
    by apply Forall_app in H as [H _].
  - intros l1 l2 H. apply (collapseFrom_single false s (k1 ++ l1) (l2 ++ k2)).
    fold (collapseRuns s). rewrite Hseg, H.
    by rewrite <- !app_assoc.
  - intros H. apply trim_head in H. done.
  - intros H. apply trimEnd_last in H. done.
Qed.

Lemma norm_normalForm (s : jsstring) : normalForm (norm s).
Proof. apply trim_collapseRuns_normalForm. Qed.

Lemma normalForm_no_hyphen (l : jsstring) : normalForm l → hyphen ∉ l.
Proof.
  intros [H _ _ _] Hin. rewrite Forall_forall in H. by apply H in Hin.
Qed.

(** *** The alias table *)

Ltac elem_of_cases H :=
  repeat (apply elem_of_cons in H as [H|H]);
  [ .. | by apply elem_of_nil in H ].

Lemma alias_lookup (k v : jsstring) :
  SHOWCASE_ALIAS !! k = Some v → (k, v) ∈ aliasEntries.
Proof. apply elem_of_list_to_map_2. Qed.

(** No alias is the empty string, so an own property is always truthy. *)
Lemma alias_value_truthy (k v : jsstring) :
  SHOWCASE_ALIAS !! k = Some v → truthy (VString v) = true.
Proof.
  intros H. apply alias_lookup in H. unfold aliasEntries in H.
  elem_of_cases H; apply pair_equal_spec in H as [-> ->]; reflexivity.
Qed.

(** One key only is mapped to "limited-time-deals". *)
Lemma alias_limited_time_key (k : jsstring) :
  SHOWCASE_ALIAS !! k = Some (lit "limited-time-deals") →
  k = lit "limited-time deals".
Proof.
  intros H. apply alias_lookup in H. unfold aliasEntries in H.
  elem_of_cases H; apply pair_equal_spec in H as [-> Hv];
    first [reflexivity | by vm_compute in Hv].
Qed.

(** Of the names [Object.prototype] defines, a normalized title can only be
    "constructor": each of the others has a capital letter or an
    underscore. *)
Lemma normalForm_prototype_key (n : jsstring) :
  normalForm n → n ∈ objectPrototypeKeys → n = lit "constructor".
Proof.
  intros [Hchars _ _ _] Hin. unfold objectPrototypeKeys in Hin.
  elem_of_cases Hin; subst n; [done|..]; exfalso; revert Hchars;
    refine (proj1 (bool_decide_eq_false _) _); vm_compute; reflexivity.
Qed.

(** When neither the alias table nor [TAGS] has the normalized title, and it
    is not "constructor", [titleToSlug] returns [undefined]. *)
Lemma titleToSlug_no_match (title0 : jsstring) :
  SHOWCASE_ALIAS !! norm title0 = None →
  find (λ t, bool_decide (norm (title t) = norm title0)) TAGS = None →
  norm title0 ≠ lit "constructor" →
  titleToSlug title0 = VUndefined.
Proof.
  intros Halias Hfind Hctor. unfold titleToSlug, getAlias.
  rewrite Halias, Hfind. case_bool_decide as Hin; [|done].
  exfalso. apply Hctor, normalForm_prototype_key; [apply norm_normalForm|done].
Qed.

(** The unknown title of the deep-link examples. *)
Lemma titleToSlug_unknown_title :
  titleToSlug (lit "Flash Sale Extravaganza") = VUndefined.
Proof. vm_compute. reflexivity. Qed.

(** *** The claims *)

(** C3: round trip.  The title of the [k]-th entry of [TAGS] resolves to
    that entry's slug, the slug is indexed at position [2 + k] of
    [sections], and that position, and no other, holds the row built from
    the entry. *)
Theorem title_slug_index_roundtrip (k : nat) (t : Tag) :
  TAGS !! k = Some t →
  titleToSlug (title t) = VString (slug t) ∧
  indexBySlug sections !! slug t = Some (2 + k) ∧
  scrollToShowcaseTitle sections (title t) = Some (2 + k) ∧
  sections !! (2 + k) = Some (showcaseRow t) ∧
  ∀ j, sections !! j = Some (showcaseRow t) → j = 2 + k.
Proof.
  intros Hk.
  do 6 (destruct k as [|k];
        [ injection Hk as <-;
          repeat split; try (vm_compute; reflexivity);
          intros j Hj;
          do 8 (destruct j as [|j]; [first [reflexivity | by vm_compute in Hj]|]);
          by vm_compute in Hj
        | ]).
  done.
Qed.

(** C4: the three spellings of "Limited-Time Deals" all resolve to the slug
    "limited-time-deals". *)
Theorem limited_time_deals_spellings :
  titleToSlug (lit "Limited-Time Deals") = VString (lit "limited-time-deals") ∧
  titleToSlug (lit "limited time deals") = VString (lit "limited-time-deals") ∧
  titleToSlug (lit "LIMITED TIME DEALS") = VString (lit "limited-time-deals").
Proof. repeat split; vm_compute; reflexivity. Qed.

(** C5: [sections] is banner, categories and then the rows of [TAGS] in
    order, and the index stored for "limited-time-deals" is 3. *)
Theorem limited_time_deals_index :
  sections = Banner :: Categories :: (showcaseRow <$> TAGS) ∧
  indexBySlug sections !! lit "limited-time-deals" = Some 3.
Proof. split; [reflexivity|]. vm_compute. reflexivity. Qed.

(** C6: a normalized title is made of lowercase letters, digits and single
    spaces, so it has no hyphen and is never the alias key
    "limited-time deals"; whenever [titleToSlug] returns
    "limited-time-deals", the alias table had no entry for the normalized
    title and the slug is that of the [TAGS] entry found by its title. *)
Theorem hyphen_alias_unreachable (s : jsstring) :
  normalForm (norm s) ∧
  (hyphen ∉ norm s) ∧
  (norm s ≠ lit "limited-time deals") ∧
  (titleToSlug s = VString (lit "limited-time-deals") →
   SHOWCASE_ALIAS !! norm s = None ∧
   find (λ t, bool_decide (norm (title t) = norm s)) TAGS =
     Some {| title := lit "Limited-Time Deals";
             slug := lit "limited-time-deals" |}).
Proof.
  pose proof (norm_normalForm s) as Hnf.
  pose proof (normalForm_no_hyphen _ Hnf) as Hhy.
  assert (Hkey : norm s ≠ lit "limited-time deals").
  { intros Heq. apply Hhy. rewrite Heq. apply list_elem_of_In.
    do 7 right. by left. }
  do 3 (split; [done|]). intros H.
  unfold titleToSlug, getAlias in H.
  destruct (SHOWCASE_ALIAS !! norm s) as [v|] eqn:Hv.
  { rewrite (alias_value_truthy _ _ Hv) in H. injection H as ->.
    by apply alias_limited_time_key in Hv. }
  split; [reflexivity|].
  case_bool_decide; cbn [truthy] in H; [done|].
  destruct (find _ TAGS) as [hit|] eqn:Hfind; [|done].
  injection H as Hslug. f_equal.
  apply find_some in Hfind as [Hin _]. apply list_elem_of_In in Hin.
  unfold TAGS in Hin.
  elem_of_cases Hin; subst hit; first [reflexivity | by vm_compute in Hslug].
Qed.

(** C7, at the title "Constructor": the alias table has no such key and no
    entry of [TAGS] has that title, yet [titleToSlug] returns what the
    object literal inherits under the name "constructor", not [undefined]. *)
Theorem titleToSlug_inherited_constructor :
  SHOWCASE_ALIAS !! norm (lit "Constructor") = None ∧
  find (λ t, bool_decide (norm (title t) = norm (lit "Constructor"))) TAGS
    = None ∧
  titleToSlug (lit "Constructor") = VInherited (lit "constructor") ∧
  titleToSlug (lit "Constructor") ≠ VUndefined.
Proof. vm_compute. repeat split; done. Qed.

(** *** Concrete runs *)

(** C3 at the entry whose title has the typographic apostrophe. *)
Lemma title_slug_index_roundtrip_witness :
  TAGS !! 4 = Some {| title := lit "This Month" ++ rsquo ++ lit "s Picks";
                      slug := lit "this-months-picks" |} ∧
  titleToSlug (lit "This Month" ++ rsquo ++ lit "s Picks") =
    VString (lit "this-months-picks") ∧
  indexBySlug sections !! lit "this-months-picks" = Some 6 ∧
  scrollToShowcaseTitle sections (lit "This Month" ++ rsquo ++ lit "s Picks")
    = Some 6.
Proof.
  assert (H : TAGS !! 4 =
              Some {| title := lit "This Month" ++ rsquo ++ lit "s Picks";
                      slug := lit "this-months-picks" |}) by reflexivity.
  split; [exact H|].
  destruct (title_slug_index_roundtrip 4 _ H) as (H1 & H2 & H3 & _).
  exact (conj H1 (conj H2 H3)).
Defined.

(** C6 at the title "Limited-Time Deals": the slug comes from [TAGS]. *)
Lemma hyphen_alias_unreachable_witness :
  titleToSlug (lit "Limited-Time Deals") = VString (lit "limited-time-deals") ∧
  SHOWCASE_ALIAS !! norm (lit "Limited-Time Deals") = None ∧
  find (λ t, bool_decide (norm (title t) = norm (lit "Limited-Time Deals")))
       TAGS =
    Some {| title := lit "Limited-Time Deals";
            slug := lit "limited-time-deals" |}.
Proof.
  assert (H : titleToSlug (lit "Limited-Time Deals") =
              VString (lit "limited-time-deals")) by (vm_compute; reflexivity).
  split; [exact H|].
  destruct (hyphen_alias_unreachable (lit "Limited-Time Deals"))
    as (_ & _ & _ & Himp).
  exact (Himp H).
Defined.

(** *** What [norm] ignores *)

Lemma N_leb_True (a b : N) : (a <=? b)%N ↔ (a ≤ b)%N.
Proof. rewrite Is_true_true. apply N.leb_le. Qed.

Lemma N_eqb_True (a b : N) : (a =? b)%N ↔ a = b.
Proof. rewrite Is_true_true. apply N.eqb_eq. Qed.

Lemma isAlnum_spec (c : N) :
  isAlnum c ↔ (97 ≤ c ∧ c ≤ 122)%N ∨ (48 ≤ c ∧ c ≤ 57)%N.
Proof.
  unfold isAlnum, isLower, isDigit.
  by rewrite orb_True, !andb_True, !N_leb_True.
Qed.

Lemma isNormChar_spec (c : N) :
  isNormChar c ↔ (97 ≤ c ∧ c ≤ 122)%N ∨ (48 ≤ c ∧ c ≤ 57)%N ∨ c = 32%N.
Proof.
  unfold isNormChar. rewrite orb_True, isAlnum_spec, N_eqb_True. tauto.
Qed.

Lemma isApostrophe_spec (c : N) : isApostrophe c ↔ c = 39%N ∨ c = 8217%N.
Proof. unfold isApostrophe. by rewrite orb_True, !N_eqb_True. Qed.

(** Settles the comparisons of the goal that the hypotheses decide. *)
Ltac N_decide :=
  repeat match goal with
  | |- context [(?a <=? ?b)%N] =>
      first [ rewrite (proj2 (N.leb_le a b)) by lia
            | rewrite (proj2 (N.leb_gt a b)) by lia ]
  | |- context [(?a =? ?b)%N] =>
      first [ rewrite (proj2 (N.eqb_eq a b)) by lia
            | rewrite (proj2 (N.eqb_neq a b)) by lia ]
  end.

Lemma isNormChar_lowerUnit (c : N) : isNormChar c → lowerUnit c = [c].
Proof.
  rewrite isNormChar_spec. unfold lowerUnit, isUpper.
  intros [H|[H|H]]; N_decide; reflexivity.
Qed.

Lemma isNormChar_not_apostrophe (c : N) : isNormChar c → ¬ isApostrophe c.
Proof. rewrite isNormChar_spec, isApostrophe_spec. lia. Qed.

Lemma isAlnum_not_whiteSpace (c : N) : isAlnum c → isWhiteSpace c = false.
Proof.
  rewrite isAlnum_spec. unfold isWhiteSpace.
  intros [H|H]; N_decide; reflexivity.
Qed.

Lemma toLowerCase_fixed (l : jsstring) :
  Forall (λ c, lowerUnit c = [c]) l → toLowerCase l = l.
Proof.
  unfold toLowerCase. induction 1 as [|c l Hc _ IH]; [done|].
  rewrite bind_cons, Hc, IH. done.
Qed.

Lemma stripApostrophes_fixed (l : jsstring) :
  Forall (λ c, ¬ isApostrophe c) l → stripApostrophes l = l.
Proof.
  unfold stripApostrophes. induction 1 as [|c l Hc _ IH]; [done|].
  rewrite filter_cons, IH. by case_decide.
Qed.

Lemma collapseFrom_fixed (b : bool) (l : jsstring) :
  Forall (λ c, isNormChar c) l →
  (∀ l1 l2, l ≠ l1 ++ 32%N :: 32%N :: l2) →
  (b = true → head l ≠ Some 32%N) →
  collapseFrom b l = l.
Proof.
  intros Hchars. revert b.
  induction Hchars as [|c l Hc _ IH]; intros b Hsingle Hhead; [done|].
  assert (Hrest : ∀ l1 l2, l ≠ l1 ++ 32%N :: 32%N :: l2).
  { intros l1 l2 ->. by apply (Hsingle (c :: l1) l2). }
  simpl. destruct (isAlnum c) eqn:Halnum.
  - f_equal. by apply IH.
  - assert (c = 32%N) as ->.
    { unfold isNormChar in Hc. rewrite Halnum in Hc. simpl in Hc.
      by destruct (N.eqb_spec c 32). }
    destruct b; [by destruct Hhead|].
    f_equal. apply IH; [done|]. intros _ Hh.
    destruct l as [|c' l]; [done|]. injection Hh as ->.
    by apply (Hsingle [] l).
Qed.

Lemma trimStart_fixed (l : jsstring) :
  (∀ c, head l = Some c → isWhiteSpace c = false) → trimStart l = l.
Proof.
  destruct l as [|c l]; [done|]. intros H. simpl.
  by rewrite (H c eq_refl).
Qed.

Lemma normalForm_end_not_whiteSpace (l : jsstring) (c : N) :
  normalForm l → head l = Some c ∨ last l = Some c → isWhiteSpace c = false.
Proof.
  intros [Hchars _ Hhead Hlast] Hc.
  assert (Hin : c ∈ l).
  { destruct Hc as [Hc|Hc].
    - destruct l; [done|]. injection Hc as ->. apply elem_of_cons. by left.
    - apply last_Some in Hc as [l' ->]. apply elem_of_app. right.
      apply elem_of_cons. by left. }
  rewrite Forall_forall in Hchars. apply Hchars in Hin.
  apply isAlnum_not_whiteSpace. unfold isNormChar in Hin.
  destruct (isAlnum c); [done|]. simpl in Hin.
  destruct (N.eqb_spec c 32) as [->|]; [|done].
  destruct Hc; congruence.
Qed.

Lemma trim_fixed (l : jsstring) : normalForm l → trim l = l.
Proof.
  intros Hnf. unfold trim.
  rewrite (trimStart_fixed l)
    by (intros c Hc; apply (normalForm_end_not_whiteSpace l c Hnf); by left).
  unfold trimEnd. rewrite trimStart_fixed; [apply reverse_involutive|].
  intros c Hc. rewrite head_reverse in Hc.
  apply (normalForm_end_not_whiteSpace l c Hnf). by right.
Qed.

(** A string in normal form is its own normalization. *)
Lemma norm_fixed (l : jsstring) : normalForm l → norm l = l.
Proof.
  intros Hnf. pose proof Hnf as [Hchars Hsingle Hhead Hlast]. unfold norm.
  rewrite toLowerCase_fixed
    by (eapply Forall_impl; [exact Hchars|apply isNormChar_lowerUnit]).
  rewrite stripApostrophes_fixed
    by (eapply Forall_impl; [exact Hchars|apply isNormChar_not_apostrophe]).
  unfold collapseRuns. rewrite collapseFrom_fixed by done.
  by apply trim_fixed.
Qed.

(** [titleToSlug] reads its argument through [norm] only. *)
Lemma titleToSlug_norm_ext (s s' : jsstring) :
  norm s = norm s' → titleToSlug s = titleToSlug s'.
Proof. unfold titleToSlug. by intros ->. Qed.

Lemma scrollToShowcaseTitle_norm_ext (rows : list Row) (s s' : jsstring) :
  norm s = norm s' →
  scrollToShowcaseTitle rows s = scrollToShowcaseTitle rows s'.
Proof.
  intros H. unfold scrollToShowcaseTitle.
  by rewrite (titleToSlug_norm_ext s s' H).
Qed.

(** X8: normalizing twice is normalizing once, and a title resolves as its
    normalization does. *)
Theorem norm_idempotent (s : jsstring) :
  norm (norm s) = norm s ∧ titleToSlug (norm s) = titleToSlug s.
Proof.
  assert (H : norm (norm s) = norm s) by apply norm_fixed, norm_normalForm.
  split; [done|]. by apply titleToSlug_norm_ext.
Qed.

(** X9: an apostrophe, straight or typographic, is dropped without separating
    the characters around it. *)
Theorem norm_apostrophe (s1 s2 : jsstring) (c : N) :
  isApostrophe c →
  norm (s1 ++ c :: s2) = norm (s1 ++ s2) ∧
  titleToSlug (s1 ++ c :: s2) = titleToSlug (s1 ++ s2).
Proof.
  intros Hc.
  assert (H : norm (s1 ++ c :: s2) = norm (s1 ++ s2)).
  { unfold norm, toLowerCase. f_equal. f_equal.
    rewrite !bind_app, bind_cons. unfold stripApostrophes.
    rewrite !filter_app. f_equal. f_equal.
    assert (lowerUnit c = [c]) as ->.
    { apply isApostrophe_spec in Hc. by destruct Hc as [-> | ->]. }
    rewrite filter_cons. by case_decide. }
  split; [done|]. by apply titleToSlug_norm_ext.
Qed.


(** *** Separators *)

Lemma isSeparator_spec (c : N) :
  isSeparator c ↔
  ¬ isAlnum c ∧ ¬ isUpper c ∧ ¬ isApostrophe c ∧ c ≠ 304%N ∧ c ≠ 8490%N.
Proof.
  unfold isSeparator.
  rewrite !andb_True, !negb_True, !N_eqb_True. tauto.
Qed.

Lemma isSeparator_lowerUnit (c : N) : isSeparator c → lowerUnit c = [c].
Proof.
  rewrite isSeparator_spec. intros (_ & Hup & _ & H1 & H2).
  unfold lowerUnit. destruct (isUpper c); [done|]. by N_decide.
Qed.

Lemma isSeparator_not_alnum (c : N) : isSeparator c → ¬ isAlnum c.
Proof. rewrite isSeparator_spec. tauto. Qed.

Lemma isSeparator_not_apostrophe (c : N) : isSeparator c → ¬ isApostrophe c.
Proof. rewrite isSeparator_spec. tauto. Qed.

Lemma isApostrophe_lowerUnit (c : N) : isApostrophe c → lowerUnit c = [c].
Proof. rewrite isApostrophe_spec. by intros [-> | ->]. Qed.

Lemma isApostrophe_not_alnum (c : N) : isApostrophe c → ¬ isAlnum c.
Proof. rewrite isApostrophe_spec. intros [-> | ->]; by vm_compute. Qed.

Lemma isWhiteSpace_spec (c : N) :
  isWhiteSpace c = true ↔
  ((9 ≤ c ∧ c ≤ 13) ∨ c = 32 ∨ c = 160 ∨ c = 5760 ∨ (8192 ≤ c ∧ c ≤ 8202)
   ∨ c = 8232 ∨ c = 8233 ∨ c = 8239 ∨ c = 8287 ∨ c = 12288 ∨ c = 65279)%N.
Proof.
  unfold isWhiteSpace.
  rewrite !orb_true_iff, !andb_true_iff, !N.leb_le, !N.eqb_eq. tauto.
Qed.

Lemma isWhiteSpace_isSeparator (c : N) : isWhiteSpace c = true → isSeparator c.
Proof.
  rewrite isWhiteSpace_spec, isSeparator_spec, isAlnum_spec,
    isApostrophe_spec.
  unfold isUpper. rewrite andb_True, !N_leb_True. lia.
Qed.

(** What [toLowerCase] and the first [replace] make of a run of
    separators: nothing changes. *)
Lemma prepare_separators (w : jsstring) :
  Forall (λ c, isSeparator c) w → stripApostrophes (toLowerCase w) = w.
Proof.
  intros H.
  rewrite toLowerCase_fixed
    by (eapply Forall_impl; [exact H|apply isSeparator_lowerUnit]).
  apply stripApostrophes_fixed.
  eapply Forall_impl; [exact H|apply isSeparator_not_apostrophe].
Qed.

Lemma prepare_app (s1 s2 : jsstring) :
  stripApostrophes (toLowerCase (s1 ++ s2)) =
  stripApostrophes (toLowerCase s1) ++ stripApostrophes (toLowerCase s2).
Proof.
  unfold toLowerCase, stripApostrophes. by rewrite bind_app, filter_app.
Qed.

Lemma collapseFrom_skip (b : bool) (c : N) (x : jsstring) :
  ¬ isAlnum c →
  collapseFrom b (c :: x) =
  if b then collapseFrom true x else 32%N :: collapseFrom true x.
Proof. intros Hc. simpl. by destruct (isAlnum c). Qed.

(** A run of characters outside [a-z0-9] collapses like one space. *)
Lemma collapseFrom_run (b : bool) (w x : jsstring) :
  w ≠ [] → Forall (λ c, ¬ isAlnum c) w →
  collapseFrom b (w ++ x) = collapseFrom b (32%N :: x).
Proof.
  intros Hne HF. revert b Hne.
  induction HF as [|c w Hc HF IH]; intros b Hne; [done|].
  rewrite <- app_comm_cons, (collapseFrom_skip b c) by done.
  rewrite (collapseFrom_skip b 32) by (by vm_compute).
  destruct w as [|c' w]; [done|].
  rewrite (IH true) by done. rewrite (collapseFrom_skip true 32) by (by vm_compute).
  done.
Qed.

Lemma collapseFrom_app_congr (b : bool) (x y y' : jsstring) :
  (∀ b', collapseFrom b' y = collapseFrom b' y') →
  collapseFrom b (x ++ y) = collapseFrom b (x ++ y').
Proof.
  intros H. revert b. induction x as [|c x IH]; intros b; simpl; [apply H|].
  destruct (isAlnum c); [by rewrite IH|]. destruct b; by rewrite IH.
Qed.

(** Where a run ends, the flag does not matter for what [trimStart] keeps. *)
Lemma trimStart_collapseFrom (b : bool) (x : jsstring) :
  trimStart (collapseFrom b x) = trimStart (collapseFrom true x).
Proof.
  destruct x as [|c x]; [done|]. simpl.
  destruct (isAlnum c); [done|]. by destruct b.
Qed.

Lemma trimStart_collapseFrom_lead (b b' : bool) (w x : jsstring) :
  Forall (λ c, ¬ isAlnum c) w →
  trimStart (collapseFrom b (w ++ x)) = trimStart (collapseFrom b' x).
Proof.
  intros HF. revert b.
  induction HF as [|c w Hc _ IH]; intros b; simpl.
  - by rewrite (trimStart_collapseFrom b), (trimStart_collapseFrom b').
  - destruct (isAlnum c); [done|]. destruct b; simpl; apply IH.
Qed.

Lemma collapseFrom_separators (b : bool) (w : jsstring) :
  Forall (λ c, ¬ isAlnum c) w →
  collapseFrom b w = [] ∨ collapseFrom b w = [32%N].
Proof.
  intros HF. destruct w as [|c w]; [by left|].
  rewrite <- (app_nil_r (c :: w)), collapseFrom_run by done.
  simpl. destruct b; [by left|by right].
Qed.

Lemma collapseFrom_trail (b : bool) (x w : jsstring) :
  Forall (λ c, ¬ isAlnum c) w →
  ∃ t, (t = [] ∨ t = [32%N]) ∧
       collapseFrom b (x ++ w) = collapseFrom b x ++ t.
Proof.
  intros HF. revert b. induction x as [|c x IH]; intros b; simpl.
  - exists (collapseFrom b w). split; [by apply collapseFrom_separators|done].
  - destruct (isAlnum c).
    + destruct (IH false) as (t & Ht & ->). by exists t.
    + destruct (IH true) as (t & Ht & ->). exists t. by destruct b.
Qed.

Lemma trimStart_app (y z : jsstring) :
  trimStart (y ++ z) =
  if forallb isWhiteSpace y then trimStart z else trimStart y ++ z.
Proof.
  induction y as [|c y IH]; simpl; [done|].
  destruct (isWhiteSpace c); [exact IH|done].
Qed.

Lemma trimStart_blank (y : jsstring) :
  forallb isWhiteSpace y = true → trimStart y = [].
Proof.
  intros H. rewrite <- (app_nil_r y) at 1. by rewrite trimStart_app, H.
Qed.

Lemma trim_trailing_space (y : jsstring) : trim (y ++ [32%N]) = trim y.
Proof.
  unfold trim. rewrite trimStart_app.
  destruct (forallb isWhiteSpace y) eqn:Hy.
  - by rewrite (trimStart_blank y Hy).
  - unfold trimEnd. by rewrite reverse_snoc.
Qed.

(** Separators around a text do not show in what [trim] and the second
    [replace] return. *)
Lemma trim_collapseRuns_padding (w1 x w2 : jsstring) :
  Forall (λ c, ¬ isAlnum c) w1 → Forall (λ c, ¬ isAlnum c) w2 →
  trim (collapseRuns (w1 ++ x ++ w2)) = trim (collapseRuns x).
Proof.
  intros H1 H2. unfold collapseRuns.
  destruct (collapseFrom_trail false x w2 H2) as (t & Ht & Htrail).
  transitivity (trim (collapseFrom false (x ++ w2))).
  - unfold trim. f_equal. by apply trimStart_collapseFrom_lead.
  - rewrite Htrail. destruct Ht as [-> | ->]; [by rewrite app_nil_r|].
    apply trim_trailing_space.
Qed.

Lemma norm_padding (w1 s w2 : jsstring) :
  Forall (λ c, isSeparator c) w1 → Forall (λ c, isSeparator c) w2 →
  norm (w1 ++ s ++ w2) = norm s.
Proof.
  intros H1 H2. unfold norm.
  rewrite !prepare_app, (prepare_separators w1 H1), (prepare_separators w2 H2).
  apply trim_collapseRuns_padding;
    (eapply Forall_impl; [eassumption|apply isSeparator_not_alnum]).
Qed.

Lemma trimStart_split (s : jsstring) :
  ∃ w, s = w ++ trimStart s ∧ Forall (λ c, isWhiteSpace c = true) w.
Proof.
  induction s as [|c s (w & Hw & HF)]; simpl.
  - by exists [].
  - destruct (isWhiteSpace c) eqn:Hc.
    + exists (c :: w). split; [by rewrite <- app_comm_cons, <- Hw|].
      by constructor.
    + by exists [].
Qed.

(** [trim] takes whitespace away at both ends, and nothing else. *)
Lemma trim_split (s : jsstring) :
  ∃ w1 w2, s = w1 ++ trim s ++ w2 ∧
           Forall (λ c, isWhiteSpace c = true) w1 ∧
           Forall (λ c, isWhiteSpace c = true) w2.
Proof.
  destruct (trimStart_split s) as (w1 & H1 & HF1).
  destruct (trimStart_split (reverse (trimStart s))) as (w2 & H2 & HF2).
  exists w1, (reverse w2). repeat split; [|done|by apply Forall_reverse].
  unfold trim, trimEnd. rewrite <- reverse_app, <- H2, reverse_involutive.
  exact H1.
Qed.

Lemma norm_trim (s : jsstring) : norm (trim s) = norm s.
Proof.
  destruct (trim_split s) as (w1 & w2 & Hs & H1 & H2).
  rewrite Hs at 2. symmetry. apply norm_padding;
    (eapply Forall_impl; [eassumption|apply isWhiteSpace_isSeparator]).
Qed.

Lemma norm_blank (s : jsstring) :
  Forall (λ c, isSeparator c ∨ isApostrophe c) s → norm s = [].
Proof.
  intros H. unfold norm.
  rewrite toLowerCase_fixed.
  2:{ eapply Forall_impl; [exact H|]. intros c [Hc|Hc];
        [by apply isSeparator_lowerUnit|by apply isApostrophe_lowerUnit]. }
  assert (HF : Forall (λ c, ¬ isAlnum c) (stripApostrophes s)).
  { apply Forall_forall. intros c Hc. unfold stripApostrophes in Hc.
    apply list_elem_of_filter in Hc as [_ Hc].
    rewrite Forall_forall in H. destruct (H c Hc);
      [by apply isSeparator_not_alnum|by apply isApostrophe_not_alnum]. }
  unfold collapseRuns.
  by destruct (collapseFrom_separators false _ HF) as [-> | ->].
Qed.

Lemma titleToSlug_empty_norm (s : jsstring) :
  norm s = [] → titleToSlug s = VUndefined.
Proof. intros H. unfold titleToSlug. rewrite H. vm_compute. reflexivity. Qed.

(** X11: any run of separators between two parts of a title counts as one
    space: hyphens, underscores, dots and repeated blanks make no
    difference. *)
Theorem norm_separator_run (s1 w s2 : jsstring) :
  w ≠ [] → Forall (λ c, isSeparator c) w →
  norm (s1 ++ w ++ s2) = norm (s1 ++ 32%N :: s2) ∧
  titleToSlug (s1 ++ w ++ s2) = titleToSlug (s1 ++ 32%N :: s2).
Proof.
  intros Hne HF.
  assert (H : norm (s1 ++ w ++ s2) = norm (s1 ++ 32%N :: s2)).
  { unfold norm. f_equal.
    change (32%N :: s2) with ([32%N] ++ s2).
    rewrite !prepare_app, (prepare_separators w HF).
    rewrite (prepare_separators [32%N]) by (by repeat constructor).
    unfold collapseRuns. apply collapseFrom_app_congr. intros b'.
    apply collapseFrom_run; [done|].
    eapply Forall_impl; [exact HF|apply isSeparator_not_alnum]. }
  split; [done|]. by apply titleToSlug_norm_ext.
Qed.

(** X12: separators before and after a title are ignored. *)
Theorem norm_ignores_padding (w1 s w2 : jsstring) :
  Forall (λ c, isSeparator c) w1 → Forall (λ c, isSeparator c) w2 →
  norm (w1 ++ s ++ w2) = norm s ∧
  titleToSlug (w1 ++ s ++ w2) = titleToSlug s.
Proof.
  intros H1 H2. pose proof (norm_padding w1 s w2 H1 H2) as H.
  split; [done|]. by apply titleToSlug_norm_ext.
Qed.

(** X13: a title without a letter or a digit, the empty title included,
    normalizes to the empty string and resolves to nothing. *)
Theorem blank_title_no_match (rows : list Row) (s : jsstring) :
  Forall (λ c, isSeparator c ∨ isApostrophe c) s →
  norm s = [] ∧ titleToSlug s = VUndefined ∧
  scrollToShowcaseTitle rows s = None.
Proof.
  intros H. pose proof (norm_blank s H) as Hn.
  pose proof (titleToSlug_empty_norm s Hn) as Ht.
  repeat split; [done..|]. unfold scrollToShowcaseTitle. by rewrite Ht.
Qed.

(** *** The slug index *)

Lemma slugAt_nil (j : nat) : slugAt [] j = None.
Proof. unfold slugAt. by rewrite lookup_nil. Qed.

Lemma indexFrom_step (n : nat) (row : Row) (m : gmap jsstring nat)
    (s : jsstring) :
  match row with
  | Showcase _ _ slug0 _ => <[slug0 := n]> m
  | _ => m
  end !! s =
  if decide (rowSlug row = Some s) then Some n else m !! s.
Proof.
  destruct row as [| |k t s0 b]; simpl.
  1,2: done.
  destruct (decide (Some s0 = Some s)) as [H|H].
  - injection H as ->. apply lookup_insert_eq.
  - apply lookup_insert_ne. congruence.
Qed.

Lemma indexFrom_lookup (n : nat) (rows : list Row) (m : gmap jsstring nat)
    (s : jsstring) (i : nat) :
  indexFrom n rows m !! s = Some i ↔
  (∃ j, i = n + j ∧ slugAt rows j = Some s ∧
        ∀ j', j < j' → slugAt rows j' ≠ Some s) ∨
  (m !! s = Some i ∧ ∀ j, slugAt rows j ≠ Some s).
Proof.
  revert n m. induction rows as [|row rows IH]; intros n m; simpl.
  - split.
    + intros H. right. split; [done|]. intros j. by rewrite slugAt_nil.
    + intros [(j & _ & H & _)|[H _]]; [by rewrite slugAt_nil in H|done].
  - rewrite IH, indexFrom_step. split.
    + intros [(j & -> & Hj & Hlater)|[Hm Hnone]].
      * left. exists (S j). split; [lia|]. split; [done|].
        intros [|j'] Hlt; [lia|]. apply Hlater. lia.
      * case_decide as Hrow.
        -- left. exists 0. injection Hm as <-. split; [lia|]. split; [done|].
           intros [|j'] Hlt; [lia|]. apply Hnone.
        -- right. split; [done|]. intros [|j]; [done|apply Hnone].
    + intros [(j & -> & Hj & Hlater)|[Hm Hnone]].
      * destruct j as [|j].
        -- right. unfold slugAt in Hj. simpl in Hj. rewrite decide_True by done.
           split; [f_equal; lia|]. intros j. apply (Hlater (S j)). lia.
        -- left. exists j. split; [lia|]. split; [done|].
           intros j' Hlt. apply (Hlater (S j')). lia.
      * right. rewrite decide_False by apply (Hnone 0).
        split; [done|]. intros j. apply (Hnone (S j)).
Qed.

Lemma indexFrom_None (n : nat) (rows : list Row) (m : gmap jsstring nat)
    (s : jsstring) :
  indexFrom n rows m !! s = None ↔
  m !! s = None ∧ ∀ j, slugAt rows j ≠ Some s.
Proof.
  revert n m. induction rows as [|row rows IH]; intros n m; simpl.
  - split; [|by intros [? _]]. intros H. split; [done|].
    intros j. by rewrite slugAt_nil.
  - rewrite IH, indexFrom_step. split.
    + intros [Hm Hnone]. case_decide as Hrow; [done|].
      split; [done|]. intros [|j]; [done|apply Hnone].
    + intros [Hm Hnone]. rewrite decide_False by apply (Hnone 0).
      split; [done|]. intros j. apply (Hnone (S j)).
Qed.

Lemma indexBySlug_Some (rows : list Row) (s : jsstring) (i : nat) :
  indexBySlug rows !! s = Some i ↔
  slugAt rows i = Some s ∧ ∀ j, i < j → slugAt rows j ≠ Some s.
Proof.
  unfold indexBySlug. rewrite indexFrom_lookup, lookup_empty. split.
  - intros [(j & -> & H)|[? _]]; done.
  - intros H. left. by exists i.
Qed.

Lemma slugAt_sectionsFor (tags : list Tag) (j : nat) :
  slugAt (sectionsFor tags) j =
  match j with
  | S (S k) => slug <$> tags !! k
  | _ => None
  end.
Proof.
  destruct j as [|[|k]]; [done..|]. unfold slugAt, sectionsFor. simpl.
  rewrite list_lookup_fmap. by destruct (tags !! k).
Qed.

(** X16: the index holds, for a slug, the position of the last showcase row with
    that slug ([Map.set] overwrites), and nothing for a slug of no row. *)
Theorem indexBySlug_last_row (rows : list Row) (s : jsstring) :
  (∀ i, indexBySlug rows !! s = Some i ↔
        slugAt rows i = Some s ∧ ∀ j, i < j → slugAt rows j ≠ Some s) ∧
  (indexBySlug rows !! s = None ↔ ∀ j, slugAt rows j ≠ Some s).
Proof.
  split; [intros i; apply indexBySlug_Some|].
  unfold indexBySlug. rewrite indexFrom_None, lookup_empty. tauto.
Qed.

Lemma sectionsFor_index_aux (tags : list Tag) (k : nat) (t : Tag) :
  NoDup (slug <$> tags) →
  tags !! k = Some t →
  indexBySlug (sectionsFor tags) !! slug t = Some (2 + k) ∧
  sectionsFor tags !! (2 + k) = Some (showcaseRow t).
Proof.
  intros Hnd Hk. split.
  - apply indexBySlug_Some. split.
    + rewrite slugAt_sectionsFor. simpl. by rewrite Hk.
    + intros j Hlt. rewrite slugAt_sectionsFor.
      destruct j as [|[|j]]; [done..|]. intros Hj.
      assert (j = k); [|lia].
      apply (NoDup_lookup (slug <$> tags) j k (slug t) Hnd).
      * by rewrite list_lookup_fmap.
      * by rewrite list_lookup_fmap, Hk.
  - unfold sectionsFor. simpl. by rewrite list_lookup_fmap, Hk.
Qed.

(** X17: round trip for any table of tags with pairwise distinct slugs: the slug
    of the [k]-th tag is indexed at [2 + k], where the row of that tag is. *)
Theorem sectionsFor_index (tags : list Tag) (k : nat) (t : Tag) :
  NoDup (slug <$> tags) →
  tags !! k = Some t →
  indexBySlug (sectionsFor tags) !! slug t = Some (2 + k) ∧
  sectionsFor tags !! (2 + k) = Some (showcaseRow t).
Proof. apply sectionsFor_index_aux. Qed.

(** X18: the keys handed to the list are pairwise distinct when the slugs are. *)
Theorem sectionsFor_keys_distinct (tags : list Tag) :
  NoDup (slug <$> tags) → NoDup (keyExtractor <$> sectionsFor tags).
Proof.
  intros Hnd. unfold sectionsFor. rewrite !fmap_cons.
  assert (Hkeys : keyExtractor <$> (showcaseRow <$> tags) =
                  (app (lit "tag-")) <$> (slug <$> tags)).
  { rewrite <- !list_fmap_compose. by apply list_fmap_ext. }
  rewrite Hkeys.
  assert (Hother : ∀ k, (∃ r, k = 98%N :: r) ∨ (∃ r, k = 99%N :: r) →
                        k ∉ app (lit "tag-") <$> (slug <$> tags)).
  { intros k Hk Hin. apply list_elem_of_fmap in Hin as (x & -> & _).
    destruct Hk as [[r Hr]|[r Hr]]; vm_compute in Hr; discriminate. }
  apply NoDup_cons. split.
  - intros Hin. apply elem_of_cons in Hin as [Heq|Hin].
    + vm_compute in Heq. discriminate.
    + revert Hin. apply Hother. left. by eexists.
  - apply NoDup_cons. split.
    + apply Hother. right. by eexists.
    + apply (NoDup_fmap_2 _). exact Hnd.
Qed.

(** *** Resolved titles and the rows *)

Lemma TAGS_slugs_NoDup : NoDup (slug <$> TAGS).
Proof. apply (bool_decide_unpack _). vm_compute. exact I. Qed.

Lemma sections_sectionsFor : sections = sectionsFor TAGS.
Proof. reflexivity. Qed.

(** Whatever string [titleToSlug] returns is the slug of a tag. *)
Lemma titleToSlug_slug_of_tag (s v : jsstring) :
  titleToSlug s = VString v → v ∈ slug <$> TAGS.
Proof.
  unfold titleToSlug, getAlias. intros H.
  destruct (SHOWCASE_ALIAS !! norm s) as [v0|] eqn:Hv.
  - rewrite (alias_value_truthy _ _ Hv) in H. injection H as ->.
    apply alias_lookup in Hv. unfold aliasEntries in Hv.
    elem_of_cases Hv; apply pair_equal_spec in Hv as [_ ->];
      apply (bool_decide_unpack _); vm_compute; exact I.
  - case_bool_decide; cbn [truthy] in H; [done|].
    destruct (find _ TAGS) as [hit|] eqn:Hfind; [|done].
    injection H as <-. apply find_some in Hfind as [Hin _].
    apply list_elem_of_fmap. exists hit. split; [done|].
    by apply list_elem_of_In.
Qed.

Lemma slug_truthy (t : Tag) : t ∈ TAGS → truthy (VString (slug t)) = true.
Proof.
  intros Hin. unfold TAGS in Hin. elem_of_cases Hin; by subst t.
Qed.

(** X15: a title that resolves to a string scrolls the list to the row of the
    tag with that slug; a title that does not, scrolls nowhere. *)
Theorem resolved_title_scrolls (s : jsstring) :
  (∀ v, titleToSlug s = VString v →
        ∃ k t, TAGS !! k = Some t ∧ slug t = v ∧
               scrollToShowcaseTitle sections s = Some (2 + k) ∧
               sections !! (2 + k) = Some (showcaseRow t)) ∧
  ((∀ v, titleToSlug s ≠ VString v) →
   ∀ rows, scrollToShowcaseTitle rows s = None).
Proof.
  split.
  - intros v Hv. pose proof (titleToSlug_slug_of_tag s v Hv) as Hin.
    apply list_elem_of_fmap in Hin as (t & -> & Hin).
    pose proof (slug_truthy t Hin) as Htruthy.
    apply list_elem_of_lookup in Hin as [k Hk]. exists k, t.
    split; [done|]. split; [done|].
    unfold scrollToShowcaseTitle. rewrite Hv, Htruthy. simpl.
    rewrite sections_sectionsFor.
    exact (sectionsFor_index_aux TAGS k t TAGS_slugs_NoDup Hk).
  - intros Hv rows. unfold scrollToShowcaseTitle.
    destruct (titleToSlug s) as [|v|n]; [done| |by destruct rows].
    by destruct (Hv v).
Qed.

(** X14: [titleToSlug] returns something inherited from [Object.prototype]
    exactly for the titles that normalize to "constructor", and then it is
    the property of that name. *)
Theorem titleToSlug_inherited_iff (s n : jsstring) :
  titleToSlug s = VInherited n ↔
  norm s = lit "constructor" ∧ n = lit "constructor".
Proof.
  split.
  - unfold titleToSlug, getAlias. intros H.
    destruct (SHOWCASE_ALIAS !! norm s) as [v|] eqn:Hv.
    { rewrite (alias_value_truthy _ _ Hv) in H. done. }
    case_bool_decide as Hin; cbn [truthy] in H.
    + injection H as <-.
      split; apply normalForm_prototype_key; (apply norm_normalForm || done).
    + by destruct (find _ TAGS).
  - intros [Hn ->]. unfold titleToSlug. rewrite Hn. vm_compute. reflexivity.
Qed.

(** *** The focus effect and the rows rendered *)

(** X19: once the three loads are over, the effect scrolls where
    [scrollToShowcaseTitle] sends the parameter as it came: the [trim] that
    the effect applies first changes nothing, and a blank parameter scrolls
    nowhere. *)
Theorem focusEffect_scroll (env : Env) (param : jsstring) :
  done env = true →
  scrolledTo (focusEffect env (Some param)) =
  scrollToShowcaseTitle sections param.
Proof.
  intros Hdone. unfold focusEffect. rewrite Hdone. simpl.
  case_bool_decide as Hblank; simpl.
  - assert (Hn : norm param = []) by (by rewrite <- norm_trim, Hblank).
    unfold scrollToShowcaseTitle.
    by rewrite (titleToSlug_empty_norm param Hn).
  - apply scrollToShowcaseTitle_norm_ext, norm_trim.
Qed.


(** X21: a showcase row made from a tag is rendered, if at all, with the tag's
    own slug as key and as product tag, also by the timed showcase, whose
    tag is a constant of the source; a placeholder stands for a row other
    than "best-sellers" as long as rendering is deferred. *)
Theorem renderItem_showcaseRow (env : Env) (t : Tag) :
  match renderItem env (showcaseRow t) with
  | TimedShowcaseByTag key0 title0 tagSlug =>
      key0 = slug t ∧ title0 = title t ∧ tagSlug = slug t ∧
      timeDealLoading env = false
  | ShowcaseByTag key0 title0 tagSlug =>
      key0 = slug t ∧ title0 = title t ∧ tagSlug = slug t
  | Placeholder =>
      deferred env = false ∧ slug t ≠ lit "best-sellers"
  | _ => False
  end.
Proof.
  unfold renderItem, showcaseRow.
  destruct (deferred env) eqn:Hdef; simpl;
    repeat case_bool_decide; simpl;
    destruct (timeDealLoading env) eqn:Htime; simpl; try done;
    repeat split; congruence.
Qed.

(** X22: the timed showcase is what the row of "limited-time-deals" renders
    once rendering is no longer deferred and the end of the deal is
    loaded; no other row and no other moment shows it. *)
Theorem renderItem_timed (env : Env) (t : Tag) :
  renderItem env (showcaseRow t) =
    TimedShowcaseByTag (slug t) (title t) (lit "limited-time-deals") ↔
  slug t = lit "limited-time-deals" ∧ timeDealLoading env = false ∧
  deferred env = true.
Proof.
  unfold renderItem, showcaseRow.
  destruct (decide (slug t = lit "limited-time-deals")) as [Hl|Hl].
  - rewrite (bool_decide_eq_true_2 _ Hl).
    rewrite bool_decide_eq_false_2 by (rewrite Hl; by vm_compute).
    destruct (deferred env), (timeDealLoading env); simpl;
      split; try done; by intros (_ & ? & ?).
  - rewrite (bool_decide_eq_false_2 _ Hl).
    destruct (deferred env), (timeDealLoading env),
      (bool_decide (slug t = lit "best-sellers")); simpl;
      split; try done; by intros (? & _).
Qed.

(** *** Concrete runs *)

(** The two apostrophes of "This Month's Picks". *)
Lemma norm_apostrophe_witness :
  norm (lit "This Month" ++ 39%N :: lit "s Picks") =
    norm (lit "This Month" ++ lit "s Picks") ∧
  titleToSlug (lit "This Month" ++ 39%N :: lit "s Picks") =
    titleToSlug (lit "This Month" ++ lit "s Picks").
Proof. apply norm_apostrophe. reflexivity. Defined.


Lemma norm_separator_run_witness :
  norm (lit "top" ++ lit "_-_ " ++ lit "rated products") =
    norm (lit "top" ++ 32%N :: lit "rated products") ∧
  titleToSlug (lit "top" ++ lit "_-_ " ++ lit "rated products") =
    titleToSlug (lit "top" ++ 32%N :: lit "rated products").
Proof.
  apply norm_separator_run; [discriminate|].
  vm_compute. repeat constructor.
Defined.

Lemma norm_ignores_padding_witness :
  norm (lit " >> " ++ lit "Best Sellers" ++ lit "!") =
    norm (lit "Best Sellers") ∧
  titleToSlug (lit " >> " ++ lit "Best Sellers" ++ lit "!") =
    titleToSlug (lit "Best Sellers").
Proof.
  apply norm_ignores_padding; vm_compute; repeat constructor.
Defined.

Lemma blank_title_no_match_witness :
  norm (lit " -- '!' ") = [] ∧
  titleToSlug (lit " -- '!' ") = VUndefined ∧
  scrollToShowcaseTitle sections (lit " -- '!' ") = None.
Proof.
  apply blank_title_no_match. vm_compute.
  repeat (constructor; [first [left; exact I | right; exact I]|]).
  constructor.
Defined.

Lemma sectionsFor_index_witness :
  indexBySlug (sectionsFor TAGS) !! lit "just-arrived" = Some 7 ∧
  sectionsFor TAGS !! 7 =
    Some (showcaseRow {| title := lit "Just Arrived";
                         slug := lit "just-arrived" |}).
Proof.
  apply (sectionsFor_index TAGS 5
           {| title := lit "Just Arrived"; slug := lit "just-arrived" |}).
  - apply (bool_decide_unpack _). vm_compute. exact I.
  - reflexivity.
Defined.

Lemma sectionsFor_keys_distinct_witness :
  NoDup (keyExtractor <$> sectionsFor TAGS).
Proof.
  apply sectionsFor_keys_distinct.
  apply (bool_decide_unpack _). vm_compute. exact I.
Defined.

Lemma resolved_title_scrolls_witness :
  ∃ k t, TAGS !! k = Some t ∧ slug t = lit "top-rated-by-customers" ∧
         scrollToShowcaseTitle sections (lit "Top rated products") =
           Some (2 + k) ∧
         sections !! (2 + k) = Some (showcaseRow t).
Proof.
  apply (proj1 (resolved_title_scrolls (lit "Top rated products"))).
  vm_compute. reflexivity.
Defined.

Lemma focusEffect_scroll_witness :
  scrolledTo
    (focusEffect {| urlLoading := false; categoryLoading := false;
                    timeDealLoading := false; deferred := true |}
       (Some (lit "  Just Arrived "))) =
  scrollToShowcaseTitle sections (lit "  Just Arrived ").
Proof. apply focusEffect_scroll. reflexivity. Defined.


(** *** Banner actions *)

Section Banner.

Context {Num : Type} (JSON_parse : jsstring → option (@json Num)).


(** X24: a banner that navigates to "Shop" always passes an object, with
    exactly the properties of the parsed parameters: the second spread of
    [promoTag] never changes anything, and parameters that are missing,
    malformed or no object give the empty object. *)
Theorem onBannerPress_shop (b : UrlType) :
  action b = lit "nav" →
  target b = Some (lit "Shop") →
  onBannerPress JSON_parse b =
  Navigate (lit "Shop")
           (Some (JObject (ownProps (safeParseParams JSON_parse (params b))))).
Proof.
  intros Hact Htarget. unfold onBannerPress.
  rewrite (bool_decide_eq_true_2 _ Hact), Htarget. simpl.
  do 2 f_equal. f_equal.
  destruct (safeParseParams JSON_parse (params b)) as [[| | | | |props]|];
    simpl; try done.
  destruct (props !! lit "promoTag") as [tag|] eqn:Htag; [|done].
  destruct tag; try done; by apply insert_id.
Qed.

End Banner.

(** A "Shop" banner whose parameters do not parse. *)
Lemma onBannerPress_shop_witness :
  onBannerPress (Num := Z) (λ _, None)
    {| action := lit "nav"; target := Some (lit "Shop");
       params := Some (lit "{oops") |} =
  Navigate (lit "Shop")
    (Some (JObject (ownProps
       (safeParseParams (Num := Z) (λ _, None) (Some (lit "{oops")))))).
Proof. apply onBannerPress_shop; reflexivity. Defined.

End CommerceSpec.
